(** * euler/prime_table.hpp: segmented sieve of Eratosthenes and its cursor

    A shallow embedding of [src/euler/prime_table.hpp].

    The template parameter [T] is instantiated with mathematical integers
    ([Z]); C++ [/] and [%] on integers truncate toward zero and are
    [Z.quot] (written [÷]) and [Z.rem].  Loops are embedded with an explicit
    iteration budget ([fuel]); the theorems show that a budget above the
    table limit always suffices.  Debug-time [assert]s are preconditions:
    they appear as hypotheses of the theorems, not in the definitions. *)

From Stdlib Require Import ZArith Znumtheory Lia List Bool.
From stdpp Require Import base list sorting.
Import ListNotations.

Open Scope Z_scope.

(** ** Results of running a piece of the program *)

Inductive result (A : Type) : Type :=
| Done (a : A)      (* normal completion *)
| OutOfRange        (* an indexed access outside [0, size) *)
| OutOfFuel.        (* the iteration budget of a loop was exhausted *)

Arguments Done {A} a.
Arguments OutOfRange {A}.
Arguments OutOfFuel {A}.

#[global] Instance result_bind : MBind result := fun A B k r =>
  match r with
  | Done a => k a
  | OutOfRange => OutOfRange
  | OutOfFuel => OutOfFuel
  end.

(** [for (; cond; i = step i) body] over a loop variable [i] and a state. *)
Fixpoint for_loop {St : Type} (fuel : nat) (cond : Z -> St -> bool)
    (step : Z -> Z) (body : Z -> St -> result St) (i : Z) (s : St)
    : result (Z * St) :=
  match fuel with
  | O => OutOfFuel
  | S fuel' =>
      if cond i s
      then s' ← body i s; for_loop fuel' cond step body (step i) s'
      else Done (i, s)
  end.

(** ** External collaborators *)

(** Modelled from the spec: the packed bit store of [dynamic_bitset.hpp],
    which is not among the sources.  [create(size, initial_value)],
    [test(index)], [reset(index)]; indices are in [0, size), and an access
    outside that range is reported as [OutOfRange]. *)
Abbreviation bitset := (list bool).

Definition bitset_create (size : Z) (v : bool) : bitset :=
  replicate (Z.to_nat size) v.

Definition bitset_size (b : bitset) : Z := Z.of_nat (length b).

Definition bitset_test (b : bitset) (i : Z) : result bool :=
  if 0 <=? i then
    match b !! Z.to_nat i with
    | Some x => Done x
    | None => OutOfRange
    end
  else OutOfRange.

Definition bitset_reset (b : bitset) (i : Z) : result bitset :=
  if (0 <=? i) && (i <? bitset_size b)
  then Done (<[Z.to_nat i := false]> b)
  else OutOfRange.

(** Modelled from the spec: [isqrt] of [imath.hpp], which is not among the
    sources: the floor of the square root of a non-negative integer. *)
Definition isqrt (x : Z) : Z := Z.sqrt x.

(** [std::vector<T>::operator[]] for reading. *)
Definition vec_at (v : list Z) (i : Z) : result Z :=
  if 0 <=? i then
    match v !! Z.to_nat i with
    | Some x => Done x
    | None => OutOfRange
    end
  else OutOfRange.

(** ** nth_prime_bounds *)

Section NthPrimeBounds.

(** The floating-point part of the estimate, [static_cast<T>(n*t)] with
    [t = ln n + ln ln n] in [long double], is kept abstract. *)
Variable scaled_log : Z -> Z.

Definition nth_prime_bounds (n : Z) : Z * Z :=
  if n <? 6 then (2, 11)
  else (scaled_log n - n - 1, scaled_log n + 1).

End NthPrimeBounds.

(** ** The prime table *)

Record prime_table : Type := mk_prime_table {
  _limit : Z;
  table : bitset
}.

(** Working state of the constructor: the bit store and the two vectors. *)
Record sieve_state : Type := mk_sieve_state {
  st_table : bitset;
  prime_p : list Z;
  next_multiple_t : list Z
}.

Definition window : Z := 32 * 1000 * 16 ÷ 2.

(** [for (; t <= / < bound; t += p) table.reset(t);] *)
Definition cross_out (fuel : nat) (cond : Z -> bool) (p t : Z) (tb : bitset)
    : result (Z * bitset) :=
  for_loop fuel (fun t _ => cond t) (fun t => t + p)
           (fun t tb => bitset_reset tb t) t tb.

(** Body of the loop over [k] that sieves the small primes. *)
Definition sieve_small_step (fuel : nat) (SMALL_K k : Z) (st : sieve_state)
    : result sieve_state :=
  b ← bitset_test (st_table st) k;
  if b : bool then
    let p := k * 2 + 1 in
    let t := 2 * k * (k + 1) in
    '(t, tb) ← cross_out fuel (fun t => t <=? SMALL_K) p t (st_table st);
    Done {| st_table := tb;
            prime_p := prime_p st ++ [p];
            next_multiple_t := next_multiple_t st ++ [t] |}
  else Done st.

(** Body of the loop over [i] inside one segment. *)
Definition sieve_segment_step (fuel : nat) (segment_end i : Z)
    (st : sieve_state) : result sieve_state :=
  t ← vec_at (next_multiple_t st) i;
  if t <? segment_end then
    p ← vec_at (prime_p st) i;
    '(t, tb) ← cross_out fuel (fun t => t <? segment_end) p t (st_table st);
    Done {| st_table := tb;
            prime_p := prime_p st;
            next_multiple_t := <[Z.to_nat i := t]> (next_multiple_t st) |}
  else Done st.

(** Body of the loop over [segment_start]. *)
Definition sieve_segment (fuel : nat) (K segment_start : Z)
    (st : sieve_state) : result sieve_state :=
  let segment_end := Z.min (segment_start + window) (K + 1) in
  '(_, st') ← for_loop fuel
                 (fun i st => i <? Z.of_nat (length (prime_p st)))
                 (fun i => i + 1)
                 (sieve_segment_step fuel segment_end) 0 st;
  Done st'.

(** The bit store as allocated by the member initialiser
    [table((N+1)/2, true)]. *)
Definition initial_table (N : Z) : bitset :=
  bitset_create ((N + 1) ÷ 2) true.

(** [prime_table::prime_table(T N)], with [USE_SEGMENTED_SIEVE] on.  The
    [reserve] calls only size the capacity of the two vectors; they and
    their floating-point estimate [SMALL_N / std::log(SMALL_N)] are left
    out. *)
Definition prime_table_new (fuel : nat) (N : Z) : result prime_table :=
  let K := (N - 1) ÷ 2 in
  tb ← bitset_reset (initial_table N) 0;
  let SMALL_N := isqrt N in
  let SMALL_K := (SMALL_N - 1) ÷ 2 in
  '(_, st) ← for_loop fuel (fun k _ => k <=? SMALL_K) (fun k => k + 1)
                (sieve_small_step fuel SMALL_K) 1
                {| st_table := tb; prime_p := []; next_multiple_t := [] |};
  '(_, st) ← for_loop fuel (fun s _ => s <=? K) (fun s => s + window)
                (sieve_segment fuel K) (SMALL_K + 1) st;
  Done {| _limit := N; table := st_table st |}.



Definition limit (pt : prime_table) : Z := _limit pt.

Definition test_odd (pt : prime_table) (n : Z) : result bool :=
  bitset_test (table pt) (n ÷ 2).


(** ** The cursor *)

Record prime_iterator : Type := mk_prime_iterator {
  _table : prime_table;
  _current : Z
}.

Definition begin (pt : prime_table) : prime_iterator :=
  mk_prime_iterator pt 2.

Definition end_ (pt : prime_table) : prime_iterator :=
  mk_prime_iterator pt 0.

(** [operator *] *)
Definition deref (it : prime_iterator) : Z := _current it.

(** [for (p = ...; p <= limit; p += 2) if (test_odd(p)) break;]
    returning the value of [p] after the loop. *)
Fixpoint scan_odd (fuel : nat) (pt : prime_table) (p : Z) : result Z :=
  match fuel with
  | O => OutOfFuel
  | S fuel' =>
      if p <=? limit pt then
        b ← test_odd pt p;
        if b : bool then Done p else scan_odd fuel' pt (p + 2)
      else Done p
  end.

(** [operator ++] *)
Definition incr (fuel : nat) (it : prime_iterator) : result prime_iterator :=
  p ← (if _current it =? 2 then Done 3
        else scan_odd fuel (_table it) (_current it + 2));
  Done {| _table := _table it;
          _current := if p <=? limit (_table it) then p else 0 |}.

(** [operator ==] and [operator !=] *)
Definition iter_eq (a b : prime_iterator) : bool :=
  (_current a =? 0) && (_current b =? 0).

Definition iter_ne (a b : prime_iterator) : bool := negb (iter_eq a b).

(** [while (it != end() && *it < n) ++it;] *)
Fixpoint lower_bound_loop (fuel fuel_incr : nat) (pt : prime_table) (n : Z)
    (it : prime_iterator) : result prime_iterator :=
  match fuel with
  | O => OutOfFuel
  | S fuel' =>
      if iter_ne it (end_ pt) && (deref it <? n) then
        it' ← incr fuel_incr it;
        lower_bound_loop fuel' fuel_incr pt n it'
      else Done it
  end.

Definition lower_bound (fuel : nat) (pt : prime_table) (n : Z)
    : result prime_iterator :=
  lower_bound_loop fuel fuel pt n (begin pt).

(** The walk of a client:
    [for (it = begin(); it != end(); ++it) visit( *it );]
    collecting the visited values in order. *)
Fixpoint walk_from (fuel fuel_incr : nat) (pt : prime_table)
    (it : prime_iterator) : result (list Z) :=
  match fuel with
  | O => OutOfFuel
  | S fuel' =>
      if iter_ne it (end_ pt) then
        it' ← incr fuel_incr it;
        rest ← walk_from fuel' fuel_incr pt it';
        Done (deref it :: rest)
      else Done []
  end.

Definition walk (fuel : nat) (pt : prime_table) : result (list Z) :=
  walk_from fuel fuel pt (begin pt).

(** ** Reference notions *)

(** Primality by trial division: [n >= 2] and no [d] in [2, n) divides it. *)
Definition trial_division (n : Z) : bool :=
  (2 <=? n) && forallb (fun d => negb (n mod d =? 0)) (seqZ 2 (n - 2)).

(** The primes of [2, N] in ascending order. *)
Definition primes_upto (N : Z) : list Z :=
  filter (fun n => trial_division n = true) (seqZ 2 (N - 1)).

(** ** Specification notions *)

(** The odd multiples [p*p, p*(p+2), p*(p+4), ...] of [p = 2k+1], as
    indices into the bit store: the positions visited by crossing out
    from [2k(k+1)] in steps of [p]. *)
Definition on_track (k t : Z) : Prop :=
  exists j, 0 <= j /\ t = 2 * k * (k + 1) + j * (2 * k + 1).

(** Bit [t] of the store has been reset. *)
Definition cleared (tb : bitset) (t : Z) : Prop :=
  tb !! Z.to_nat t = Some false.

(** No prime has been crossed out; bit 0 (the number 1) is cleared. *)
Definition sound (K : Z) (tb : bitset) : Prop :=
  bitset_size tb = K + 1 /\ tb !! 0%nat = Some false /\
  forall k, 1 <= k <= K -> Z.prime (2 * k + 1) -> tb !! Z.to_nat k = Some true.

(** A recorded pair ([p], next multiple [t]): [t] is on the track of [p]
    and every earlier position of the track has been crossed out. *)
Definition entry_ok (tb : bitset) (p t : Z) : Prop :=
  exists k, 1 <= k /\ p = k * 2 + 1 /\ on_track k t /\
            forall t', on_track k t' -> t' < t -> cleared tb t'.

(** The two vectors [prime_p] and [next_multiple_t] run in step, every
    pair is an [entry_ok], and the next multiple at position [j] is at
    least [bound j]. *)
Definition entries (tb : bitset) (P Nx : list Z) (bound : nat -> Z) : Prop :=
  length P = length Nx /\
  forall j p t, P !! j = Some p -> Nx !! j = Some t ->
                entry_ok tb p t /\ bound j <= t.

(** Every prime [2k+1] with [1 <= k <= m] has been recorded. *)
Definition covers (P : list Z) (m : Z) : Prop :=
  forall k, 1 <= k <= m -> Z.prime (2 * k + 1) ->
            exists j : nat, P !! j = Some (k * 2 + 1).

(** Invariant of the loop over [k] that sieves the small primes. *)
Definition small_inv (K SMALL_K k : Z) (st : sieve_state) : Prop :=
  1 <= k <= SMALL_K + 1 /\
  sound K (st_table st) /\
  Z.of_nat (length (prime_p st)) < k /\
  covers (prime_p st) (k - 1) /\
  entries (st_table st) (prime_p st) (next_multiple_t st)
          (fun _ => SMALL_K + 1).

(** Inside a segment ending at [se]: the pairs before position [i] have
    been advanced to [se], the others are still at least [lo]. *)
Definition seg_bound (lo se i : Z) : nat -> Z :=
  fun j => if Z.of_nat j <? i then se else lo.

(** Invariant of the loop over [i] inside one segment. *)
Definition seg_inv (K : Z) (P0 : list Z) (lo se i : Z) (st : sieve_state)
    : Prop :=
  0 <= i <= Z.of_nat (length P0) /\
  prime_p st = P0 /\
  sound K (st_table st) /\
  entries (st_table st) P0 (next_multiple_t st) (seg_bound lo se i).

(** Invariant of the loop over [segment_start]. *)
Definition segments_inv (K SMALL_K s : Z) (st : sieve_state) : Prop :=
  SMALL_K + 1 <= s /\
  sound K (st_table st) /\
  Z.of_nat (length (prime_p st)) <= SMALL_K /\
  covers (prime_p st) SMALL_K /\
  entries (st_table st) (prime_p st) (next_multiple_t st)
          (fun _ => Z.min s (K + 1)).

(** What a table built for limit [N] looks like: bit [i] of the store tells
    whether [2i+1] is prime, for every odd number of [1, N]. *)
Definition well_built (N : Z) (pt : prime_table) : Prop :=
  1 <= N /\
  _limit pt = N /\
  bitset_size (table pt) = (N + 1) ÷ 2 /\
  forall i, 0 <= i -> 2 * i + 1 <= N ->
            table pt !! Z.to_nat i = Some (trial_division (2 * i + 1)).





(** The primes of [v, N] in ascending order, by trial division. *)
Definition primes_from (v N : Z) : list Z :=
  filter (fun n => trial_division n = true) (seqZ v (N + 1 - v)).





(** [p] is the [n]-th prime: it is prime and [n] primes are at most [p]. *)
Definition is_nth_prime (n p : Z) : Prop :=
  Z.prime p /\ Z.of_nat (length (primes_upto p)) = n.





(** ** Number theory used by the sieve *)

(** Brings the quotient and remainder of a non-negative [x] by 2 into
    the context, for [lia]. *)
Ltac halve x :=
  pose proof (Z.quot_rem' x 2);
  pose proof (Z.rem_bound_pos x 2 ltac:(lia) ltac:(lia)).

Section NumberTheory.

Lemma trial_division_prime (n : Z) : trial_division n = true <-> Z.prime n.
Proof.
  unfold trial_division, Z.prime.
  rewrite andb_true_iff, Z.leb_le, forallb_forall. split.
  - intros [Hn Hall]. split; [lia|]. intros d Hd Hdiv.
    assert (Hin : In d (seqZ 2 (n - 2))).
    { apply list_elem_of_In, elem_of_seqZ. lia. }
    specialize (Hall d Hin). apply negb_true_iff, Z.eqb_neq in Hall.
    apply Hall, Z.mod_divide; [lia | exact Hdiv].
  - intros [Hn Hall]. split; [lia|]. intros d Hin.
    apply list_elem_of_In, elem_of_seqZ in Hin.
    apply negb_true_iff, Z.eqb_neq. intros Hmod.
    apply (Hall d); [lia|]. apply Z.mod_divide; [lia | exact Hmod].
Qed.

Lemma trial_division_not_prime (n : Z) :
  trial_division n = false <-> ~ Z.prime n.
Proof.
  rewrite <- trial_division_prime. destruct (trial_division n); split;
    intros; congruence.
Qed.

Lemma prime_decide (n : Z) : {Z.prime n} + {~ Z.prime n}.
Proof.
  destruct (trial_division n) eqn:E.
  - left. now apply trial_division_prime.
  - right. now apply trial_division_not_prime.
Qed.

(** A number above 1 that is not prime has a proper divisor. *)
Lemma proper_divisor (n : Z) :
  1 < n -> ~ Z.prime n -> exists d, 1 < d < n /\ (d | n).
Proof.
  intros Hn Hnp. apply not_prime_divide; [exact Hn|].
  intros Hp. apply Hnp, prime_alt, Hp.
Qed.

(** A composite number has a prime factor not above its square root. *)
Lemma small_prime_factor (n : Z) :
  1 < n -> ~ Z.prime n -> exists q, Z.prime q /\ (q | n) /\ q * q <= n.
Proof.
  assert (Hpos : 0 <= n \/ n < 0) by lia. destruct Hpos as [Hpos|]; [|lia].
  revert n Hpos. apply (Z_lt_induction
    (fun n => 1 < n -> ~ Z.prime n ->
              exists q, Z.prime q /\ (q | n) /\ q * q <= n)).
  intros n IH Hn Hnp.
  destruct (proper_divisor n Hn Hnp) as [d [Hd [e He]]].
  assert (He1 : 1 < e) by nia.
  set (a := Z.min d e).
  assert (Ha : 1 < a /\ a * a <= n /\ (a | n) /\ a < n).
  { unfold a. destruct (Z.min_spec d e) as [[? ->]|[? ->]].
    - split; [lia|]. split; [nia|]. split; [exists e; lia | lia].
    - split; [lia|]. split; [nia|]. split; [exists d; lia | nia]. }
  destruct Ha as (Ha1 & Ha2 & Ha3 & Ha4).
  destruct (prime_decide a) as [Hpa|Hnpa].
  - exists a. auto.
  - destruct (IH a ltac:(lia) Ha1 Hnpa) as (q & Hq & Hqa & Hqq).
    exists q. split; [exact Hq|]. split.
    + eapply Z.divide_trans; eassumption.
    + assert (0 < q) by (destruct Hq; lia).
      assert (a <= a * a) by nia. lia.
Qed.

Lemma on_track_start (k : Z) : on_track k (2 * k * (k + 1)).
Proof. exists 0. lia. Qed.

Lemma on_track_step (k t : Z) : on_track k t -> on_track k (t + (k * 2 + 1)).
Proof. intros [j [Hj ->]]. exists (j + 1). lia. Qed.

Lemma on_track_composite (k t : Z) :
  1 <= k -> on_track k t -> ~ Z.prime (2 * t + 1).
Proof.
  intros Hk [j [Hj ->]] [_ Hp].
  apply (Hp (2 * k + 1)); [nia|]. exists (2 * k + 1 + 2 * j). lia.
Qed.

Lemma on_track_lower (k t : Z) : 1 <= k -> on_track k t -> 2 * k * (k + 1) <= t.
Proof. intros Hk [j [Hj ->]]. nia. Qed.

(** The positions on the track of [k] below [t + p] are those below [t],
    and [t] itself. *)
Lemma on_track_below_next (k t t' : Z) :
  1 <= k -> on_track k t -> on_track k t' -> t' < t + (k * 2 + 1) ->
  t' < t \/ t' = t.
Proof.
  intros Hk [j [Hj ->]] [j' [Hj' ->]] Hlt.
  assert (j' <= j) by nia.
  assert (Hc : j' = j \/ j' < j) by lia. destruct Hc as [->|Hc]; [right; lia|].
  left. nia.
Qed.

(** Every odd composite [2i+1] lies on the track of one of its prime
    factors [2k+1], whose square does not exceed it. *)
Lemma composite_on_track (i : Z) :
  1 <= i -> ~ Z.prime (2 * i + 1) ->
  exists k, 1 <= k /\ Z.prime (2 * k + 1) /\
            (2 * k + 1) * (2 * k + 1) <= 2 * i + 1 /\ on_track k i.
Proof.
  intros Hi Hnp.
  destruct (small_prime_factor (2 * i + 1) ltac:(lia) Hnp)
    as (q & Hq & [m Hm] & Hqq).
  assert (Hq2 : 2 <= q) by (destruct Hq; lia).
  assert (Hqodd : q mod 2 = 1).
  { assert (Hc : q mod 2 = 0 \/ q mod 2 = 1)
      by (pose proof (Z.mod_pos_bound q 2); lia).
    destruct Hc as [Hc|Hc]; [|exact Hc]. exfalso.
    apply Z.mod_divide in Hc; [|lia]. destruct Hc as [c Hc]. lia. }
  assert (Hmodd : m mod 2 = 1).
  { assert (Hc : m mod 2 = 0 \/ m mod 2 = 1)
      by (pose proof (Z.mod_pos_bound m 2); lia).
    destruct Hc as [Hc|Hc]; [|exact Hc]. exfalso.
    apply Z.mod_divide in Hc; [|lia]. destruct Hc as [c Hc]. nia. }
  pose proof (Z.div_mod q 2 ltac:(lia)) as Hqd.
  pose proof (Z.div_mod m 2 ltac:(lia)) as Hmd.
  set (k := q / 2) in *. set (h := m / 2) in *.
  assert (Hmq : q <= m) by nia.
  exists k. split; [lia|].
  split; [replace (2 * k + 1) with q by lia; exact Hq|].
  split; [replace (2 * k + 1) with q by lia; exact Hqq|].
  exists (h - k). split; [lia|]. nia.
Qed.

End NumberTheory.

(** ** A proof rule for [for_loop] *)

Section LoopRule.

Context {St : Type}.
Variables (cond : Z -> St -> bool) (step : Z -> Z).
Variable body : Z -> St -> result St.
Variable Inv : Z -> St -> Prop.
Variable var : Z -> St -> Z.

Hypothesis var_nonneg : forall i s, Inv i s -> 0 <= var i s.
Hypothesis body_ok : forall i s, Inv i s -> cond i s = true ->
  exists s', body i s = Done s' /\ Inv (step i) s' /\
             var (step i) s' < var i s.

(** With a budget above the variant, the loop ends normally, in a state
    that satisfies the invariant and falsifies the loop condition. *)
Lemma for_loop_rule (fuel : nat) (i : Z) (s : St) :
  Inv i s -> var i s < Z.of_nat fuel ->
  exists i' s', for_loop fuel cond step body i s = Done (i', s') /\
                Inv i' s' /\ cond i' s' = false.
Proof.
  revert i s. induction fuel as [|fuel IH]; intros i s HI Hv.
  - pose proof (var_nonneg i s HI). lia.
  - simpl. destruct (cond i s) eqn:Hc.
    + destruct (body_ok i s HI Hc) as (s' & -> & HI' & Hdec). simpl.
      apply IH; [exact HI' | lia].
    + exists i, s. auto.
Qed.

End LoopRule.

(** ** Invariants of the sieve *)

Lemma entry_ok_mono (tb tb' : bitset) (p t : Z) :
  (forall x, cleared tb x -> cleared tb' x) ->
  entry_ok tb p t -> entry_ok tb' p t.
Proof.
  intros Hm (k & Hk & Hp & Ht & Hc). exists k. repeat split; auto.
Qed.

Lemma reset_sound (K t : Z) (tb : bitset) :
  sound K tb -> 0 <= t <= K -> ~ Z.prime (2 * t + 1) ->
  exists tb', bitset_reset tb t = Done tb' /\ sound K tb' /\ cleared tb' t /\
              forall x, cleared tb x -> cleared tb' x.
Proof.
  intros (Hsz & H0 & Hpr) Ht Hnp. unfold bitset_reset, bitset_size in *.
  assert (Hlt : (Z.to_nat t < length tb)%nat) by lia.
  replace ((0 <=? t) && (t <? Z.of_nat (length tb))) with true
    by (symmetry; apply andb_true_iff; split;
        [apply Z.leb_le | apply Z.ltb_lt]; lia).
  eexists. split; [reflexivity|]. split; [|split].
  - unfold sound, bitset_size.
    split; [rewrite length_insert; exact Hsz|]. split.
    + destruct (decide (Z.to_nat t = 0%nat)) as [E|E].
      * rewrite E. apply list_lookup_insert_eq. lia.
      * rewrite list_lookup_insert_ne by exact E. exact H0.
    + intros k Hk Hp. rewrite list_lookup_insert_ne; [auto|].
      intros E. assert (t = k) by lia. subst. contradiction.
  - unfold cleared. apply list_lookup_insert_eq. exact Hlt.
  - unfold cleared. intros x Hx.
    destruct (decide (Z.to_nat t = Z.to_nat x)) as [E|E].
    + rewrite <- E. apply list_lookup_insert_eq. exact Hlt.
    + rewrite list_lookup_insert_ne by exact E. exact Hx.
Qed.

(** Crossing out along the track of [k] up to (excluding) [B]. *)
Lemma cross_out_spec (fuel : nat) (cond : Z -> bool) (B K k t : Z)
    (tb : bitset) :
  (forall x, cond x = (x <? B)) -> 1 <= k -> 0 <= B <= K + 1 ->
  sound K tb -> on_track k t ->
  (forall t', on_track k t' -> t' < t -> cleared tb t') ->
  B < Z.of_nat fuel ->
  exists t1 tb1,
    cross_out fuel cond (k * 2 + 1) t tb = Done (t1, tb1) /\
    sound K tb1 /\ on_track k t1 /\ B <= t1 /\
    (forall t', on_track k t' -> t' < t1 -> cleared tb1 t') /\
    (forall x, cleared tb x -> cleared tb1 x).
Proof.
  intros Hcond Hk HB Hs Ht Hbelow Hfuel. unfold cross_out.
  destruct (for_loop_rule (fun t _ => cond t) (fun t => t + (k * 2 + 1))
              (fun t tb => bitset_reset tb t)
              (fun t' tb' => sound K tb' /\ on_track k t' /\
                 (forall t'', on_track k t'' -> t'' < t' -> cleared tb' t'') /\
                 (forall x, cleared tb x -> cleared tb' x))
              (fun t' _ => Z.max 0 (B - t')))
    with (fuel := fuel) (i := t) (s := tb)
    as (t1 & tb1 & Hrun & (Hs1 & Ht1 & Hb1 & Hm1) & Hc1).
  - intros; lia.
  - intros t' tb' (Hs' & Ht' & Hb' & Hm') Hc. rewrite Hcond in Hc.
    apply Z.ltb_lt in Hc. pose proof (on_track_lower k t' Hk Ht') as Hlow.
    destruct (reset_sound K t' tb' Hs' ltac:(nia)
                (on_track_composite k t' Hk Ht'))
      as (tb'' & -> & Hs'' & Hcl & Hm'').
    exists tb''. split; [reflexivity|]. split; [|cbv beta; lia].
    split; [exact Hs''|]. split; [apply on_track_step; exact Ht'|]. split.
    + intros t'' Ht'' Hlt.
      destruct (on_track_below_next k t' t'' Hk Ht' Ht'' Hlt) as [Hl| ->].
      * apply Hm'', Hb'; assumption.
      * exact Hcl.
    + intros x Hx. apply Hm'', Hm', Hx.
  - split; [exact Hs|]. split; [exact Ht|]. split; [exact Hbelow|auto].
  - pose proof (on_track_lower k t Hk Ht). assert (0 <= t) by nia.
    cbv beta. lia.
  - exists t1, tb1. rewrite Hcond in Hc1. apply Z.ltb_ge in Hc1.
    split; [exact Hrun|]. split; [exact Hs1|]. split; [exact Ht1|].
    split; [exact Hc1|]. split; assumption.
Qed.

Lemma leb_as_ltb (m x : Z) : (x <=? m) = (x <? m + 1).
Proof. destruct (Z.leb_spec x m), (Z.ltb_spec x (m + 1)); auto; lia. Qed.

Lemma bitset_test_in_range (K i : Z) (tb : bitset) :
  bitset_size tb = K + 1 -> 0 <= i <= K ->
  exists b, tb !! Z.to_nat i = Some b /\ bitset_test tb i = Done b.
Proof.
  unfold bitset_size, bitset_test. intros Hsz Hi.
  destruct (lookup_lt_is_Some_2 tb (Z.to_nat i) ltac:(lia)) as [b Hb].
  exists b. rewrite Hb. destruct (Z.leb_spec 0 i); [auto | lia].
Qed.

Lemma vec_at_lookup (v : list Z) (i : Z) (x : Z) :
  0 <= i -> v !! Z.to_nat i = Some x -> vec_at v i = Done x.
Proof.
  intros Hi Hx. unfold vec_at. rewrite Hx.
  destruct (Z.leb_spec 0 i); [auto | lia].
Qed.

(** ** The constructor establishes the table *)

Section Construction.

Variables (fuel : nat) (N K SMALL_K : Z).
Hypothesis HN : 1 <= N.
Hypothesis Hfuel : N < Z.of_nat fuel.
Hypothesis HK : K = (N - 1) ÷ 2.
Hypothesis HSK : SMALL_K = (isqrt N - 1) ÷ 2.

Lemma SMALL_K_range : 0 <= SMALL_K <= K.
Proof.
  clear Hfuel.
  unfold isqrt in HSK. pose proof (Z.sqrt_spec N ltac:(lia)) as Hs.
  cbv zeta in Hs. pose proof (Z.sqrt_nonneg N).
  assert (Z.sqrt N <= N) by nia.
  assert (1 <= Z.sqrt N) by nia.
  rewrite HK, HSK. split.
  - apply Z.quot_pos; lia.
  - apply Z.quot_le_mono; lia.
Qed.

Lemma K_below_N : K + 1 <= N.
Proof.
  clear Hfuel.
  rewrite HK. halve (N - 1). lia.
Qed.

Lemma small_factor_index (k : Z) :
  1 <= k -> (2 * k + 1) * (2 * k + 1) <= N -> k <= SMALL_K.
Proof.
  clear Hfuel.
  intros Hk Hsq. unfold isqrt in HSK.
  assert (2 * k + 1 <= Z.sqrt N) by (apply Z.sqrt_le_square; lia).
  rewrite HSK. halve (Z.sqrt N - 1). lia.
Qed.

Lemma odd_in_table (i : Z) : 1 <= i <= K -> 2 * i + 1 <= N.
Proof.
  clear Hfuel.
  rewrite HK. halve (N - 1). lia.
Qed.

(** *** Sieving the small primes *)

Lemma sieve_small_step_ok (k : Z) (st : sieve_state) :
  small_inv K SMALL_K k st -> k <= SMALL_K ->
  exists st', sieve_small_step fuel SMALL_K k st = Done st' /\
              small_inv K SMALL_K (k + 1) st'.
Proof.
  intros (Hk & Hs & Hlen & Hcov & Hlens & Hent) Hle.
  pose proof SMALL_K_range as HSKr. pose proof K_below_N as HKN.
  unfold sieve_small_step.
  destruct (bitset_test_in_range K k (st_table st) (proj1 Hs) ltac:(lia))
    as (b & Hb & ->). simpl. destruct b.
  - destruct (cross_out_spec fuel (fun t => t <=? SMALL_K) (SMALL_K + 1) K k
                (2 * k * (k + 1)) (st_table st)) as
      (t1 & tb1 & -> & Hs1 & Ht1 & Hge & Hb1 & Hm1);
      [apply leb_as_ltb | lia | lia | exact Hs | apply on_track_start
      | | lia |].
    { intros t' Ht' Hlt. pose proof (on_track_lower k t' ltac:(lia) Ht'). lia. }
    simpl. eexists. split; [reflexivity|]. unfold small_inv. simpl.
    split; [lia|]. split; [exact Hs1|].
    split; [rewrite length_app; simpl; lia|].
    split; [|split].
    + intros k' Hk' Hp. destruct (decide (k' = k)) as [->|Hne].
      * exists (length (prime_p st)). apply list_lookup_middle. reflexivity.
      * destruct (Hcov k' ltac:(lia) Hp) as [j Hj]. exists j.
        apply lookup_app_l_Some. exact Hj.
    + rewrite !length_app. simpl. lia.
    + intros j p t Hp Ht.
      apply lookup_app_Some in Hp. apply lookup_app_Some in Ht.
      destruct Hp as [Hp|[Hjp Hp]], Ht as [Ht|[Hjt Ht]].
      * destruct (Hent j p t Hp Ht) as [He Hbd].
        split; [eapply entry_ok_mono; eauto | exact Hbd].
      * apply lookup_lt_Some in Hp. lia.
      * apply lookup_lt_Some in Ht. lia.
      * rewrite Hlens in Hp.
        destruct (j - length (next_multiple_t st))%nat; [|discriminate].
        simpl in Hp, Ht. injection Hp as <-. injection Ht as <-.
        split; [|lia]. exists k. split; [lia|]. auto.
  - exists st. split; [reflexivity|]. unfold small_inv.
    split; [lia|]. split; [exact Hs|]. split; [lia|].
    split; [|split; assumption].
    intros k' Hk' Hp. destruct (decide (k' = k)) as [->|Hne].
    + destruct Hs as (_ & _ & Hpr). rewrite (Hpr k ltac:(lia) Hp) in Hb.
      discriminate.
    + apply Hcov; [lia | exact Hp].
Qed.

Lemma sieve_small_ok (tb : bitset) :
  sound K tb ->
  exists k st,
    for_loop fuel (fun k _ => k <=? SMALL_K) (fun k => k + 1)
             (sieve_small_step fuel SMALL_K) 1
             {| st_table := tb; prime_p := []; next_multiple_t := [] |}
    = Done (k, st) /\ small_inv K SMALL_K (SMALL_K + 1) st.
Proof.
  intros Hs. pose proof SMALL_K_range as HSKr. pose proof K_below_N as HKN.
  destruct (for_loop_rule (fun k (_ : sieve_state) => k <=? SMALL_K)
              (fun k => k + 1) (sieve_small_step fuel SMALL_K)
              (small_inv K SMALL_K)
              (fun k _ => SMALL_K + 1 - k)) with
    (fuel := fuel) (i := 1)
    (s := {| st_table := tb; prime_p := []; next_multiple_t := [] |})
    as (k & st & Hrun & HI & Hc).
  - intros i s (Hi & _). lia.
  - intros i s HI Hc. apply Z.leb_le in Hc.
    destruct (sieve_small_step_ok i s HI Hc) as (s' & Hs' & HI').
    exists s'. split; [exact Hs'|]. split; [exact HI'|lia].
  - unfold small_inv. simpl. split; [lia|]. split; [exact Hs|].
    split; [lia|]. split; [intros k' Hk'; lia|]. split; [reflexivity|].
    intros j p t Hp. rewrite lookup_nil in Hp. discriminate.
  - cbv beta. lia.
  - exists k, st. split; [exact Hrun|]. apply Z.leb_gt in Hc.
    assert (k = SMALL_K + 1) by (destruct HI as (Hk & _); lia).
    subst k. exact HI.
Qed.

(** *** Sieving one segment *)

Lemma sieve_segment_step_ok (P0 : list Z) (lo se i : Z) (st : sieve_state) :
  0 <= lo <= se -> se <= K + 1 ->
  seg_inv K P0 lo se i st -> i < Z.of_nat (length P0) ->
  exists st', sieve_segment_step fuel se i st = Done st' /\
              seg_inv K P0 lo se (i + 1) st'.
Proof.
  intros Hlo Hse (Hi & HP & Hs & Hlens & Hent) Hlt.
  pose proof K_below_N as HKN. unfold sieve_segment_step.
  destruct (lookup_lt_is_Some_2 P0 (Z.to_nat i) ltac:(lia)) as [p Hp].
  destruct (lookup_lt_is_Some_2 (next_multiple_t st) (Z.to_nat i) ltac:(lia))
    as [t Ht].
  rewrite (vec_at_lookup _ i t ltac:(lia) Ht). simpl.
  destruct (Hent _ p t Hp Ht) as [(k & Hk & Hpk & Htr & Hbelow) Hbd].
  destruct (Z.ltb_spec t se) as [Htse|Htse].
  - rewrite HP, (vec_at_lookup _ i p ltac:(lia) Hp). simpl. subst p.
    destruct (cross_out_spec fuel (fun t => t <? se) se K k t (st_table st))
      as (t1 & tb1 & -> & Hs1 & Ht1 & Hge & Hb1 & Hm1);
      [reflexivity | lia | lia | exact Hs | exact Htr | exact Hbelow | lia |].
    simpl. eexists. split; [reflexivity|]. unfold seg_inv. simpl.
    split; [lia|]. split; [reflexivity|]. split; [exact Hs1|].
    split; [rewrite length_insert; exact Hlens|].
    intros j p' t' Hp' Ht'.
    destruct (decide (j = Z.to_nat i)) as [->|Hne].
    + rewrite list_lookup_insert_eq in Ht' by lia. injection Ht' as <-.
      rewrite Hp in Hp'. injection Hp' as <-.
      split; [exists k; auto|]. unfold seg_bound.
      destruct (Z.ltb_spec (Z.of_nat (Z.to_nat i)) (i + 1)); lia.
    + rewrite list_lookup_insert_ne in Ht' by congruence.
      destruct (Hent j p' t' Hp' Ht') as [He Hbd'].
      split; [eapply entry_ok_mono; eauto|]. revert Hbd'. unfold seg_bound.
      destruct (Z.ltb_spec (Z.of_nat j) i), (Z.ltb_spec (Z.of_nat j) (i + 1));
        lia.
  - exists st. split; [reflexivity|]. unfold seg_inv.
    split; [lia|]. split; [exact HP|]. split; [exact Hs|].
    split; [exact Hlens|]. intros j p' t' Hp' Ht'.
    destruct (Hent j p' t' Hp' Ht') as [He Hbd'].
    split; [exact He|]. revert Hbd'. unfold seg_bound.
    destruct (Z.ltb_spec (Z.of_nat j) i), (Z.ltb_spec (Z.of_nat j) (i + 1));
      try lia.
    assert (j = Z.to_nat i) by lia. subst j.
    rewrite Ht in Ht'. injection Ht' as <-. lia.
Qed.

(** *** The loop over the segments *)

Lemma window_pos : 0 < window.
Proof. reflexivity. Qed.

Lemma sieve_segment_ok (s : Z) (st : sieve_state) :
  segments_inv K SMALL_K s st -> s <= K ->
  exists st', sieve_segment fuel K s st = Done st' /\
              segments_inv K SMALL_K (s + window) st'.
Proof.
  intros (Hs0 & Hs & Hlen & Hcov & Hent) Hle.
  pose proof SMALL_K_range as HSKr. pose proof K_below_N as HKN.
  pose proof window_pos as Hw. unfold sieve_segment.
  set (se := Z.min (s + window) (K + 1)).
  destruct (for_loop_rule
              (fun i st => i <? Z.of_nat (length (prime_p st)))
              (fun i => i + 1) (sieve_segment_step fuel se)
              (seg_inv K (prime_p st) s se)
              (fun i _ => Z.of_nat (length (prime_p st)) - i)) with
    (fuel := fuel) (i := 0) (s := st) as (i & st' & -> & HI & Hc).
  - intros i s' (Hi & _). lia.
  - intros i s' HI Hc. assert (HP : prime_p s' = prime_p st) by apply HI.
    rewrite HP in Hc. apply Z.ltb_lt in Hc.
    destruct (sieve_segment_step_ok (prime_p st) s se i s' ltac:(lia)
                ltac:(lia) HI Hc) as (s'' & Hs'' & HI').
    exists s''. split; [exact Hs''|]. split; [exact HI'|lia].
  - unfold seg_inv. split; [lia|]. split; [reflexivity|]. split; [exact Hs|].
    destruct Hent as [Hlens Hent]. split; [exact Hlens|].
    intros j p t Hp Ht. destruct (Hent j p t Hp Ht) as [He Hbd].
    split; [exact He|]. revert Hbd. unfold seg_bound.
    destruct (Z.ltb_spec (Z.of_nat j) 0); lia.
  - cbv beta. lia.
  - simpl. exists st'. split; [reflexivity|].
    destruct HI as (Hi & HP & Hs' & Hlens & Hent').
    rewrite HP in Hc. apply Z.ltb_ge in Hc.
    unfold segments_inv. rewrite HP.
    split; [lia|]. split; [exact Hs'|]. split; [exact Hlen|].
    split; [exact Hcov|]. split; [exact Hlens|].
    intros j p t Hp Ht. destruct (Hent' j p t Hp Ht) as [He Hbd].
    split; [exact He|]. revert Hbd. unfold seg_bound.
    pose proof (lookup_lt_Some _ _ _ Hp).
    destruct (Z.ltb_spec (Z.of_nat j) i); [fold se; lia | lia].
Qed.

Lemma sieve_segments_ok (st : sieve_state) :
  small_inv K SMALL_K (SMALL_K + 1) st ->
  exists s st',
    for_loop fuel (fun s _ => s <=? K) (fun s => s + window)
             (sieve_segment fuel K) (SMALL_K + 1) st = Done (s, st') /\
    sound K (st_table st') /\
    covers (prime_p st') SMALL_K /\
    entries (st_table st') (prime_p st') (next_multiple_t st')
            (fun _ => K + 1).
Proof.
  intros (_ & Hs & Hlen & Hcov & Hent).
  pose proof SMALL_K_range as HSKr. pose proof K_below_N as HKN.
  pose proof window_pos as Hw.
  destruct (for_loop_rule (fun s (_ : sieve_state) => s <=? K)
              (fun s => s + window) (sieve_segment fuel K)
              (segments_inv K SMALL_K)
              (fun s _ => Z.max 0 (K + 1 - s))) with
    (fuel := fuel) (i := SMALL_K + 1) (s := st)
    as (s & st' & Hrun & HI & Hc).
  - intros; lia.
  - intros i s' HI Hc. apply Z.leb_le in Hc.
    destruct (sieve_segment_ok i s' HI Hc) as (s'' & Hs'' & HI').
    exists s''. split; [exact Hs''|]. split; [exact HI'|lia].
  - unfold segments_inv. split; [lia|]. split; [exact Hs|]. split; [lia|].
    replace (SMALL_K + 1 - 1) with SMALL_K in Hcov by lia.
    split; [exact Hcov|]. destruct Hent as [Hlens Hent]. split; [exact Hlens|].
    intros j p t Hp Ht. destruct (Hent j p t Hp Ht) as [He Hbd].
    split; [exact He|lia].
  - cbv beta. lia.
  - exists s, st'. split; [exact Hrun|]. apply Z.leb_gt in Hc.
    destruct HI as (_ & Hs' & _ & Hcov' & Hlens & Hent').
    split; [exact Hs'|]. split; [exact Hcov'|]. split; [exact Hlens|].
    intros j p t Hp Ht. destruct (Hent' j p t Hp Ht) as [He Hbd].
    split; [exact He|lia].
Qed.

End Construction.

(** *** The finished table *)

Lemma half_quot (N : Z) : 1 <= N -> (N + 1) ÷ 2 = (N - 1) ÷ 2 + 1.
Proof.
  intros HN. halve (N - 1).
  halve (N + 1). lia.
Qed.

Lemma initial_reset_sound (N : Z) :
  1 <= N ->
  exists tb, bitset_reset (initial_table N) 0 = Done tb /\
             sound ((N - 1) ÷ 2) tb.
Proof.
  intros HN. pose proof (half_quot N HN) as Hh.
  assert (HK0 : 0 <= (N - 1) ÷ 2) by (apply Z.quot_pos; lia).
  unfold bitset_reset, bitset_size, initial_table, bitset_create.
  rewrite length_replicate.
  destruct (Z.ltb_spec 0 (Z.of_nat (Z.to_nat ((N + 1) ÷ 2)))); [|lia].
  simpl. eexists. split; [reflexivity|]. unfold sound, bitset_size.
  rewrite length_insert, length_replicate. split; [lia|]. split.
  - apply list_lookup_insert_eq. rewrite length_replicate. lia.
  - intros k Hk _. rewrite list_lookup_insert_ne by lia.
    apply lookup_replicate_2. lia.
Qed.

Theorem prime_table_new_ok (fuel : nat) (N : Z) :
  1 <= N -> N < Z.of_nat fuel ->
  exists pt, prime_table_new fuel N = Done pt /\ well_built N pt.
Proof.
  intros HN Hfuel. unfold prime_table_new.
  set (K := (N - 1) ÷ 2). set (SK := (isqrt N - 1) ÷ 2).
  destruct (initial_reset_sound N HN) as (tb0 & -> & Hs0). simpl.
  destruct (sieve_small_ok fuel N K SK HN Hfuel eq_refl eq_refl tb0 Hs0)
    as (k1 & st1 & -> & HI1). simpl.
  destruct (sieve_segments_ok fuel N K SK HN Hfuel eq_refl eq_refl st1 HI1)
    as (s2 & st2 & -> & Hs2 & Hcov & Hlens & Hent). simpl.
  eexists. split; [reflexivity|]. unfold well_built. simpl.
  destruct Hs2 as (Hsz & Hz & Hpr).
  split; [exact HN|].
  split; [reflexivity|]. split; [rewrite Hsz; symmetry; apply half_quot, HN|].
  intros i Hi HiN.
  assert (HiK : i <= K).
  { unfold K. halve (N - 1). lia. }
  destruct (decide (i = 0)) as [->|Hne]; [exact Hz|].
  destruct (trial_division (2 * i + 1)) eqn:E.
  - apply Hpr; [lia|]. apply trial_division_prime, E.
  - apply trial_division_not_prime in E.
    destruct (composite_on_track i ltac:(lia) E) as (k & Hk & Hpk & Hsq & Htr).
    assert (HkS : k <= SK).
    { apply (small_factor_index N SK HN eq_refl k Hk). lia. }
    destruct (Hcov k ltac:(lia) Hpk) as [j Hj].
    destruct (lookup_lt_is_Some_2 (next_multiple_t st2) j) as [t Ht].
    { rewrite <- Hlens. eapply lookup_lt_Some, Hj. }
    destruct (Hent j _ t Hj Ht) as [(k' & Hk' & Hpk' & Htr' & Hbelow) Hbd].
    assert (k' = k) by lia. subst k'.
    apply Hbelow; [exact Htr | lia].
Qed.

(** The finished table does not depend on the budget: rebuilding gives the
    same table. *)
Lemma well_built_unique (N : Z) (pt1 pt2 : prime_table) :
  well_built N pt1 -> well_built N pt2 -> pt1 = pt2.
Proof.
  intros (HN & Hl1 & Hs1 & Hb1) (_ & Hl2 & Hs2 & Hb2).
  destruct pt1 as [l1 tb1], pt2 as [l2 tb2]. simpl in *. subst l1 l2.
  f_equal. apply list_eq. intros i. unfold bitset_size in *.
  pose proof (half_quot N HN) as Hh.
  assert (HK0 : 0 <= (N - 1) ÷ 2) by (apply Z.quot_pos; lia).
  destruct (Nat.lt_ge_cases i (length tb1)) as [Hlt|Hge].
  - assert (Hi : 2 * Z.of_nat i + 1 <= N).
    { halve (N + 1). lia. }
    pose proof (Hb1 (Z.of_nat i) ltac:(lia) Hi) as E1.
    pose proof (Hb2 (Z.of_nat i) ltac:(lia) Hi) as E2.
    rewrite Nat2Z.id in E1, E2. congruence.
  - rewrite !lookup_ge_None_2; [reflexivity | lia | lia].
Qed.

Theorem prime_table_new_deterministic (fuel1 fuel2 : nat) (N : Z) :
  1 <= N -> N < Z.of_nat fuel1 -> N < Z.of_nat fuel2 ->
  prime_table_new fuel1 N = prime_table_new fuel2 N.
Proof.
  intros HN H1 H2.
  destruct (prime_table_new_ok fuel1 N HN H1) as (pt1 & -> & Hwb1).
  destruct (prime_table_new_ok fuel2 N HN H2) as (pt2 & -> & Hwb2).
  f_equal. eapply well_built_unique; eassumption.
Qed.

(** ** Primality queries on a finished table *)








(** ** Advancing the cursor *)












(** ** Cursor equality *)

(** C7.  Two cursors compare equal exactly when both are in the end state
    (current value 0), whatever their tables; so two non-end cursors at
    the same value compare unequal, and a non-end cursor is not equal to
    itself.  [operator !=] is the negation. *)
Theorem iter_eq_both_end (a b : prime_iterator) :
  (iter_eq a b = true <-> _current a = 0 /\ _current b = 0) /\
  (_current a <> 0 -> _current b = _current a -> iter_eq a b = false) /\
  (_current a <> 0 -> iter_eq a a = false) /\
  iter_ne a b = negb (iter_eq a b).
Proof.
  unfold iter_ne, iter_eq. split; [|split; [|split]].
  - rewrite andb_true_iff, !Z.eqb_eq. reflexivity.
  - intros Ha _. apply andb_false_iff. left. apply Z.eqb_neq, Ha.
  - intros Ha. apply andb_false_iff. left. apply Z.eqb_neq, Ha.
  - reflexivity.
Qed.

Lemma iter_eq_both_end_witness :
  iter_eq (mk_prime_iterator (mk_prime_table 3 [false; true]) 3)
          (mk_prime_iterator (mk_prime_table 5 [false; true; true]) 3)
  = false.
Proof.
  refine (proj1 (proj2 (iter_eq_both_end
           (mk_prime_iterator (mk_prime_table 3 [false; true]) 3)
           (mk_prime_iterator (mk_prime_table 5 [false; true; true]) 3))) _ _);
    simpl; [lia | reflexivity].
Defined.

(** ** The cursor only ever shows primes of the table *)





(** ** Walking the table *)











(** ** lower_bound *)



Example walk_30 :
  exists pt, prime_table_new 31 30 = Done pt /\
             walk 31 pt = Done [2; 3; 5; 7; 11; 13; 17; 19; 23; 29].
Proof. eexists. split; vm_compute; reflexivity. Qed.

Example lower_bound_30_14 :
  exists pt it, prime_table_new 31 30 = Done pt /\
                lower_bound 31 pt 14 = Done it /\ deref it = 17.
Proof. do 2 eexists. split; [|split]; vm_compute; reflexivity. Qed.

(** ** Tables without primes: limits 0 and 1 *)




(** C4.  For limit 0 the store is allocated with (0+1)/2 = 0 bits, and
    the forced clear of bit 0 is an access outside the store: the
    constructor does not complete, whatever the budget. *)
Theorem construct_limit_0_out_of_range (fuel : nat) :
  bitset_size (initial_table 0) = 0 /\
  bitset_reset (initial_table 0) 0 = OutOfRange /\
  prime_table_new fuel 0 = OutOfRange.
Proof. repeat split. Qed.

(** ** Size of the bit store *)





(** ** The bracket for the first five primes *)

Lemma primes_upto_split (a b : Z) :
  1 <= a <= b ->
  primes_upto b = primes_upto a ++ primes_from (a + 1) b.
Proof.
  intros Hab. unfold primes_upto, primes_from.
  replace (b - 1) with ((a - 1) + (b + 1 - (a + 1))) by lia.
  rewrite seqZ_app by lia. rewrite filter_app. do 3 f_equal. lia.
Qed.

Lemma six_primes_upto (p : Z) :
  13 <= p -> (6 <= length (primes_upto p))%nat.
Proof.
  intros Hp. rewrite (primes_upto_split 13 p) by lia.
  rewrite length_app. change (length (primes_upto 13)) with 6%nat. lia.
Qed.

Lemma nth_prime_small (n q : Z) :
  1 <= n <= 5 -> is_nth_prime n q ->
  Some q = [2; 3; 5; 7; 11] !! Z.to_nat (n - 1).
Proof.
  intros Hn [Hp Hcount].
  assert (Hq2 : 2 <= q) by apply Z.prime_ge_2, Hp.
  assert (Hq : q <= 12).
  { destruct (Z.le_gt_cases q 12) as [|Hgt]; [assumption|].
    pose proof (six_primes_upto q ltac:(lia)). lia. }
  apply trial_division_prime in Hp.
  assert (Hcases : q = 2 \/ q = 3 \/ q = 4 \/ q = 5 \/ q = 6 \/ q = 7 \/
                   q = 8 \/ q = 9 \/ q = 10 \/ q = 11 \/ q = 12) by lia.
  repeat (destruct Hcases as [->|Hcases]); try subst q;
    vm_compute in Hp; try discriminate Hp;
    vm_compute in Hcount; subst n; reflexivity.
Qed.

(** C9.  For every [n < 6], [nth_prime_bounds n] is the pair (2, 11); and
    for each [n] of 1..5 the [n]-th prime exists, is 2, 3, 5, 7, 11
    respectively, and lies within the bracket, ends included. *)
Theorem nth_prime_bounds_small (scaled_log : Z -> Z) (n : Z) :
  n < 6 ->
  nth_prime_bounds scaled_log n = (2, 11) /\
  (1 <= n ->
   exists p, is_nth_prime n p /\
             (forall q, is_nth_prime n q -> q = p) /\
             Some p = [2; 3; 5; 7; 11] !! Z.to_nat (n - 1) /\
             fst (nth_prime_bounds scaled_log n) <= p
               <= snd (nth_prime_bounds scaled_log n)).
Proof.
  intros Hn. assert (Hb : nth_prime_bounds scaled_log n = (2, 11)).
  { unfold nth_prime_bounds. destruct (Z.ltb_spec n 6); [reflexivity | lia]. }
  split; [exact Hb|]. intros Hn1. rewrite Hb. simpl.
  assert (Hex : exists p, is_nth_prime n p).
  { assert (Hc : n = 1 \/ n = 2 \/ n = 3 \/ n = 4 \/ n = 5) by lia.
    destruct Hc as [-> | [-> | [-> | [-> | ->]]]];
      [exists 2 | exists 3 | exists 5 | exists 7 | exists 11];
      (split; [apply trial_division_prime|]; vm_compute; reflexivity). }
  destruct Hex as [p Hp]. exists p.
  pose proof (nth_prime_small n p ltac:(lia) Hp) as Hnth.
  split; [exact Hp|]. split; [|split; [exact Hnth|]].
  - intros q Hq. pose proof (nth_prime_small n q ltac:(lia) Hq) as Hnq.
    congruence.
  - assert (Hc : n = 1 \/ n = 2 \/ n = 3 \/ n = 4 \/ n = 5) by lia.
    destruct Hc as [-> | [-> | [-> | [-> | ->]]]]; simpl in Hnth;
      injection Hnth as ->; lia.
Qed.

Lemma nth_prime_bounds_small_witness :
  nth_prime_bounds (fun _ => 0) 3 = (2, 11) /\
  (1 <= 3 ->
   exists p, is_nth_prime 3 p /\
             (forall q, is_nth_prime 3 q -> q = p) /\
             Some p = [2; 3; 5; 7; 11] !! Z.to_nat (3 - 1) /\
             fst (nth_prime_bounds (fun _ => 0) 3) <= p
               <= snd (nth_prime_bounds (fun _ => 0) 3)).
Proof. apply (nth_prime_bounds_small (fun _ => 0) 3). lia. Defined.

(** ** Further properties of the finished table *)






(** ** Further properties of the cursor *)


















(** ** The two phases of the constructor *)








Section Bootstrap.

Variables (fuel : nat) (N K SMALL_K : Z).
Hypothesis HN : 1 <= N.
Hypothesis Hfuel : N < Z.of_nat fuel.
Hypothesis HK : K = (N - 1) ÷ 2.
Hypothesis HSK : SMALL_K = (isqrt N - 1) ÷ 2.




End Bootstrap.








